(** * BinarySearchTreeMap: a leaf-removal binary search tree map

    A shallow embedding of [BinaryTree.cpp] and the properties of its
    [put] / [get] / [remove] / [size] / [toString] methods.

    - a [std::unique_ptr<Node>] is a [tree]: either [nullptr] or an owned
      [Node] with its key, value and two owned children;
    - the object state is the record [BinarySearchTreeMap] ([size_], [root]);
      every method takes the state and returns its result with the state
      it leaves behind;
    - [size_t] is a 64-bit unsigned integer, kept in [Z] with the
      wrap-around of [++] and [--] written out;
    - a [throw] is the [Throw] outcome, carrying the exception object. *)

From Stdlib Require Import ZArith List String Ascii Bool Lia Sorted DecimalString.
Import ListNotations.

Open Scope string_scope.
Open Scope list_scope.

(** ** The template parameters *)

(** What the class template asks of [K]: [operator==] and [operator>]. *)
Class Key (K : Type) := {
  key_eqb : K -> K -> bool;
  key_gtb : K -> K -> bool
}.

(** Keys are totally ordered: [==] decides equality and [>] is a strict
    total order. *)
Class KeyOrder (K : Type) {key_ops : Key K} : Prop := {
  key_eqb_eq : forall a b, key_eqb a b = true <-> a = b;
  key_gtb_irrefl : forall a, key_gtb a a = false;
  key_gtb_trans : forall a b c,
      key_gtb a b = true -> key_gtb b c = true -> key_gtb a c = true;
  key_gtb_total : forall a b, a = b \/ key_gtb a b = true \/ key_gtb b a = true
}.

(** What [toString] asks of [K] and [V]: [operator<<] into a stream. *)
Class Show (T : Type) := show : T -> string.

(** [x] is strictly less than [y]; the code only ever evaluates [y > x]. *)
Definition key_lt {K} {key_ops : Key K} (x y : K) : Prop := key_gtb y x = true.
Definition key_gt {K} {key_ops : Key K} (x y : K) : Prop := key_gtb x y = true.

(** ** size_t *)

Definition SIZE_WIDTH : Z := 64.
Definition SIZE_MAX : Z := 2 ^ SIZE_WIDTH - 1.

(** [++size_] and [--size_] on an unsigned 64-bit counter. *)
Definition size_incr (n : Z) : Z := (n + 1) mod 2 ^ SIZE_WIDTH.
Definition size_decr (n : Z) : Z := (n - 1) mod 2 ^ SIZE_WIDTH.

(** ** Exceptions *)

Inductive exception : Type :=
| invalid_argument (what : string).

Inductive outcome (A : Type) : Type :=
| Return (a : A)
| Throw (e : exception).

Arguments Return {A} a.
Arguments Throw {A} e.

Definition LEAF_ONLY : string := "ERROR: Only leaf nodes can be removed.".

(** ** The tree and the map *)

Section Tree.
Context {K V : Type}.

(** [std::unique_ptr<Node>]: null, or the node it owns. *)
Inductive tree : Type :=
| nullptr
| Node (key : K) (value : V) (left right : tree).

(** [explicit operator bool] of a [unique_ptr]. *)
Definition nonnull (p : tree) : bool :=
  match p with
  | nullptr => false
  | Node _ _ _ _ => true
  end.

(** [Node::setValue]: stores [value], hands back the old one.  It is only
    called through a non-null pointer. *)
Definition setValue (value : V) (n : tree) : option V * tree :=
  match n with
  | nullptr => (None, nullptr)
  | Node k old l r => (Some old, Node k value l r)
  end.

Record BinarySearchTreeMap : Type := {
  size_ : Z;
  root : tree
}.

(** The constructor: [size_(0), root(nullptr)]. *)
Definition empty : BinarySearchTreeMap := {| size_ := 0; root := nullptr |}.

Definition size (m : BinarySearchTreeMap) : Z := size_ m.

Definition isEmpty (m : BinarySearchTreeMap) : bool := Z.eqb (size_ m) 0.

Context {key_ops : Key K}.

(** The while loop of [put], from the slot [ptr] points at: the
    returned tree is that slot's content once the loop and the assignment
    after it are done. *)
Fixpoint put_loop (key : K) (value : V) (t : tree) : option V * tree :=
  match t with
  | nullptr => (None, Node key value nullptr nullptr)
  | Node current v l r =>
      if key_eqb current key then (Some v, snd (setValue value t))
      else if key_gtb key current then
        let (ret, r') := put_loop key value r in (ret, Node current v l r')
      else
        let (ret, l') := put_loop key value l in (ret, Node current v l' r)
  end.

Definition put (key : K) (value : V) (m : BinarySearchTreeMap)
  : option V * BinarySearchTreeMap :=
  match root m with
  | nullptr =>
      (None, {| size_ := size_incr (size_ m);
                root := Node key value nullptr nullptr |})
  | Node _ _ _ _ =>
      match put_loop key value (root m) with
      | (Some ret, t') => (Some ret, {| size_ := size_ m; root := t' |})
      | (None, t') => (None, {| size_ := size_incr (size_ m); root := t' |})
      end
  end.

(** The loop of [remove]; a throw leaves the slot as it was. *)
Fixpoint remove_loop (key : K) (t : tree) : outcome (option V) * tree :=
  match t with
  | nullptr => (Return None, nullptr)
  | Node current v l r =>
      if key_eqb current key then
        if nonnull r || nonnull l
        then (Throw (invalid_argument LEAF_ONLY), t)
        else (Return (Some v), nullptr)
      else if key_gtb key current then
        let (res, r') := remove_loop key r in (res, Node current v l r')
      else
        let (res, l') := remove_loop key l in (res, Node current v l' r)
  end.

Definition remove (key : K) (m : BinarySearchTreeMap)
  : outcome (option V) * BinarySearchTreeMap :=
  match remove_loop key (root m) with
  | (Return (Some ret), t') =>
      (Return (Some ret), {| size_ := size_decr (size_ m); root := t' |})
  | (res, t') => (res, {| size_ := size_ m; root := t' |})
  end.

Fixpoint get_loop (key : K) (t : tree) : option V :=
  match t with
  | nullptr => None
  | Node current v l r =>
      if key_eqb current key then Some v
      else if key_gtb key current then get_loop key r
      else get_loop key l
  end.

Definition get (key : K) (m : BinarySearchTreeMap)
  : option V * BinarySearchTreeMap :=
  (get_loop key (root m), m).

(** *** toString *)

Context {show_key : Show K} {show_value : Show V}.

(** One pair streamed into [inOrder]: an opening parenthesis, the key,
    a comma and a space, the value, a closing parenthesis and a space. *)
Definition stream_entry (inOrder : string) (k : K) (v : V) : string :=
  (((((inOrder ++ "(") ++ show k) ++ ", ") ++ show v) ++ ") ")%string.

(** The [while (!stack.empty() || node)] loop.  The vector's back is the
    head of [stack]; [fuel] bounds the number of iterations, and [None]
    is a loop cut short (or a null pointer on the stack, which the loop
    never pushes). *)
Fixpoint toString_loop (fuel : nat) (stack : list tree) (node : tree)
         (inOrder : string) : option string :=
  match fuel with
  | O => None
  | S fuel' =>
      match node with
      | Node _ _ l _ => toString_loop fuel' (node :: stack) l inOrder
      | nullptr =>
          match stack with
          | [] => Some inOrder
          | nullptr :: _ => None
          | Node k v _ r :: stack' =>
              toString_loop fuel' stack' r (stream_entry inOrder k v)
          end
      end
  end.

Definition toString_with (fuel : nat) (m : BinarySearchTreeMap)
  : option string :=
  match toString_loop fuel [] (root m) "[ " with
  | Some inOrder => Some (inOrder ++ "]")%string
  | None => None
  end.

Fixpoint node_count (t : tree) : nat :=
  match t with
  | nullptr => 0
  | Node _ _ l r => S (node_count l + node_count r)
  end.

(** Each node is pushed once and popped once, and one more test ends the
    loop. *)
Definition toString_bound (m : BinarySearchTreeMap) : nat :=
  S (2 * node_count (root m)).

Definition toString (m : BinarySearchTreeMap) : option string :=
  toString_with (toString_bound m) m.

End Tree.

Arguments tree : clear implicits.
Arguments BinarySearchTreeMap : clear implicits.
Arguments nullptr {K V}.
Arguments empty {K V}.

(** ** The instantiation of [main]: [BinarySearchTreeMap<int, std::string>] *)

#[export] Instance int_Key : Key Z := {
  key_eqb := Z.eqb;
  key_gtb := Z.gtb
}.

(** [operator<<] on an [int]: decimal digits, a minus sign when negative. *)
#[export] Instance int_Show : Show Z :=
  fun n => NilZero.string_of_int (Z.to_int n).

#[export] Instance string_Show : Show string := fun s => s.

(** ** Sequences of calls *)

Section Calls.
Context {K V : Type} {key_ops : Key K}.

Inductive call : Type :=
| Put (key : K) (value : V)
| Remove (key : K)
| Get (key : K).

(** The state a call leaves behind; a caught exception leaves the state
    [remove] had when it threw. *)
Definition after (c : call) (m : BinarySearchTreeMap K V)
  : BinarySearchTreeMap K V :=
  match c with
  | Put key value => snd (put key value m)
  | Remove key => snd (remove key m)
  | Get key => snd (get key m)
  end.

Definition run (cs : list call) (m : BinarySearchTreeMap K V)
  : BinarySearchTreeMap K V :=
  fold_left (fun m c => after c m) cs m.

(** The states a program can bring a freshly constructed map to. *)
Definition reachable (m : BinarySearchTreeMap K V) : Prop :=
  exists cs, m = run cs empty.

(** The same with [put] calls only. *)
Definition is_put (c : call) : bool :=
  match c with
  | Put _ _ => true
  | _ => false
  end.

Definition put_reachable (m : BinarySearchTreeMap K V) : Prop :=
  exists cs, forallb is_put cs = true /\ m = run cs empty.

(** *** Vocabulary of the properties *)

(** In-order traversal: left subtree, node, right subtree. *)
Fixpoint inorder (t : tree K V) : list (K * V) :=
  match t with
  | nullptr => []
  | Node k v l r => inorder l ++ (k, v) :: inorder r
  end.

Definition keys (t : tree K V) : list K := map fst (inorder t).

(** [n] is a node of [t]. *)
Inductive node_in (n : tree K V) : tree K V -> Prop :=
| node_here : nonnull n = true -> node_in n n
| node_left : forall k v l r, node_in n l -> node_in n (Node k v l r)
| node_right : forall k v l r, node_in n r -> node_in n (Node k v l r).

(** The ordering invariant, node by node. *)
Fixpoint bst (t : tree K V) : Prop :=
  match t with
  | nullptr => True
  | Node k _ l r =>
      Forall (fun x => key_lt x k) (keys l) /\
      Forall (fun x => key_gt x k) (keys r) /\
      bst l /\ bst r
  end.

(** Slots.  A slot is addressed by the turns taken from the root. *)
Inductive turn : Type := Left | Right.

(** Where the search walk for [key] stops: at the node holding [key], or
    at the empty slot it falls off the tree through. *)
Fixpoint walk (key : K) (t : tree K V) : list turn :=
  match t with
  | nullptr => []
  | Node current _ l r =>
      if key_eqb current key then []
      else if key_gtb key current then Right :: walk key r
      else Left :: walk key l
  end.

(** What a slot holds. *)
Fixpoint slot (p : list turn) (t : tree K V) : tree K V :=
  match p, t with
  | [], _ => t
  | Left :: p', Node _ _ l _ => slot p' l
  | Right :: p', Node _ _ _ r => slot p' r
  | _ :: _, nullptr => nullptr
  end.

(** The tree with one slot given a new content, all else as it was. *)
Fixpoint assign (p : list turn) (x : tree K V) (t : tree K V) : tree K V :=
  match p, t with
  | [], _ => x
  | Left :: p', Node k v l r => Node k v (assign p' x l) r
  | Right :: p', Node k v l r => Node k v l (assign p' x r)
  | _ :: _, nullptr => nullptr
  end.

(** No more nodes than a [size_t] counts: every node is an object of its
    own in a 64-bit address space. *)
Definition addressable (m : BinarySearchTreeMap K V) : Prop :=
  (Z.of_nat (node_count (root m)) <= SIZE_MAX)%Z.

(** A key is left alone by a run of calls from [m]: no [put] of it, and
    no [remove] of it that returned its value. *)
Definition overwrites (k : K) (c : call) : bool :=
  match c with
  | Put key _ => key_eqb key k
  | _ => false
  end.

Definition removes (k : K) (c : call) (m : BinarySearchTreeMap K V) : bool :=
  match c with
  | Remove key =>
      key_eqb key k &&
      match fst (remove key m) with
      | Return (Some _) => true
      | _ => false
      end
  | _ => false
  end.

Fixpoint left_alone (k : K) (cs : list call) (m : BinarySearchTreeMap K V)
  : bool :=
  match cs with
  | [] => true
  | c :: cs' =>
      negb (overwrites k c) && negb (removes k c m) &&
      left_alone k cs' (after c m)
  end.

(** The pairs the tree lists for one key. *)
Definition entries_of (k : K) (t : tree K V) : list (K * V) :=
  filter (fun e => key_eqb (fst e) k) (inorder t).

Definition never_put (k : K) (cs : list call) : bool :=
  forallb (fun c => negb (overwrites k c)) cs.

(** The counter follows the node count, modulo its width. *)
Definition counted (m : BinarySearchTreeMap K V) : Prop :=
  size_ m = (Z.of_nat (node_count (root m)) mod 2 ^ SIZE_WIDTH)%Z.

End Calls.

Arguments call : clear implicits.

(** ** What [toString] is to write *)

Section RenderingSpec.
Context {K V : Type} {show_key : Show K} {show_value : Show V}.

(** The pairs of a list, each as [(k, v)] followed by one space. *)
Fixpoint render (es : list (K * V)) : string :=
  match es with
  | [] => ""
  | (k, v) :: es' =>
      ("(" ++ show k ++ ", " ++ show v ++ ") " ++ render es')%string
  end.

(** What the loop still owes for the nodes on its stack: each one's own
    pair, then its right subtree. *)
Fixpoint pending (stack : list (tree K V)) : list (K * V) :=
  match stack with
  | [] => []
  | nullptr :: stack' => pending stack'
  | Node k v _ r :: stack' => (k, v) :: inorder r ++ pending stack'
  end.

(** The iterations that are left: two for each node not yet pushed, one
    for each node on the stack. *)
Fixpoint owed (stack : list (tree K V)) : nat :=
  match stack with
  | [] => 0
  | nullptr :: stack' => owed stack'
  | Node _ _ _ r :: stack' => S (2 * node_count r + owed stack')
  end.

End RenderingSpec.

(** ** Callers: what a run of calls returns *)

Section Callers.
Context {K V : Type} {key_ops : Key K}.

(** What one call hands to its caller: the returned optional, or the
    exception it throws. *)
Definition result_of (c : call K V) (m : BinarySearchTreeMap K V)
  : outcome (option V) :=
  match c with
  | Put key value => Return (fst (put key value m))
  | Remove key => fst (remove key m)
  | Get key => Return (fst (get key m))
  end.

(** The results of the calls of a run, in order, each exception caught. *)
Fixpoint results (cs : list (call K V)) (m : BinarySearchTreeMap K V)
  : list (outcome (option V)) :=
  match cs with
  | [] => []
  | c :: cs' => result_of c m :: results cs' (after c m)
  end.

(** Post-order traversal: left subtree, right subtree, node. *)
Fixpoint postorder (t : tree K V) : list (K * V) :=
  match t with
  | nullptr => []
  | Node k v l r => postorder l ++ postorder r ++ [(k, v)]
  end.

(** The number of nodes on the longest walk from the root. *)
Fixpoint height (t : tree K V) : nat :=
  match t with
  | nullptr => 0
  | Node _ _ l r => S (Nat.max (height l) (height r))
  end.

(** A tree that is one chain of right children. *)
Fixpoint chain (es : list (K * V)) : tree K V :=
  match es with
  | [] => nullptr
  | (k, v) :: es' => Node k v nullptr (chain es')
  end.

(** The [remove] loop run for one key after another on a slot's content:
    the results and the content left. *)
Fixpoint drain (ks : list K) (t : tree K V)
  : list (outcome (option V)) * tree K V :=
  match ks with
  | [] => ([], t)
  | k :: ks' =>
      let (res, t') := remove_loop k t in
      let (rs, t'') := drain ks' t' in
      (res :: rs, t'')
  end.

End Callers.

(** The calls of [main] up to its first assertion on [size]. *)
Definition main_puts : list (call Z string) :=
  [Put 4%Z "four"; Put 5%Z "five"; Put 3%Z "three"; Put 1%Z "one";
   Put 6%Z "six"; Put 0%Z "zero"; Put 7%Z "seven"; Put 2%Z "two"].

(** The map of [main] once its eight [put] calls are done, and once
    [remove(2)] has returned. *)
Definition main_map8 : BinarySearchTreeMap Z string := run main_puts empty.
Definition main_map7 : BinarySearchTreeMap Z string :=
  snd (remove 2%Z main_map8).

(** * Properties *)

(** ** Keys *)

Section KeyFacts.
Context {K : Type} {key_ops : Key K} {key_order : KeyOrder K}.

Lemma key_eqb_refl (a : K) : key_eqb a a = true.
Proof. now apply key_eqb_eq. Qed.

Lemma key_eqb_neq (a b : K) : a <> b -> key_eqb a b = false.
Proof.
  intros Hab. destruct (key_eqb a b) eqn:E; [|reflexivity].
  apply key_eqb_eq in E. contradiction.
Qed.

Lemma key_eqb_false (a b : K) : key_eqb a b = false -> a <> b.
Proof.
  intros E Hab. subst. rewrite key_eqb_refl in E. discriminate.
Qed.

Lemma key_gtb_asym (a b : K) : key_gtb a b = true -> key_gtb b a = false.
Proof.
  intros Hab. destruct (key_gtb b a) eqn:E; [|reflexivity].
  pose proof (key_gtb_trans _ _ _ Hab E) as Haa.
  rewrite key_gtb_irrefl in Haa. discriminate.
Qed.

(** The [else] branch of the walk: neither equal nor greater is less. *)
Lemma key_lt_of_walk (key current : K) :
  key_eqb current key = false -> key_gtb key current = false ->
  key_lt key current.
Proof.
  intros E G. unfold key_lt.
  destruct (key_gtb_total key current) as [-> | [G' | G']].
  - rewrite key_eqb_refl in E. discriminate.
  - congruence.
  - exact G'.
Qed.

Lemma key_lt_neq (a b : K) : key_lt a b -> a <> b.
Proof.
  unfold key_lt. intros G ->. rewrite key_gtb_irrefl in G. discriminate.
Qed.

Lemma key_gt_neq (a b : K) : key_gt a b -> a <> b.
Proof.
  unfold key_gt. intros G ->. rewrite key_gtb_irrefl in G. discriminate.
Qed.

End KeyFacts.

(** The three outcomes of one comparison step of a walk. *)
Ltac walk_step current key :=
  let E := fresh "Heq" in
  let G := fresh "Hgt" in
  destruct (key_eqb current key) eqn:E;
  [ apply key_eqb_eq in E
  | destruct (key_gtb key current) eqn:G ].

(** ** The walks, slot by slot *)

Section Slots.
Context {K V : Type} {key_ops : Key K}.
Implicit Types (t l r : tree K V) (k key : K) (v value : V).

Lemma put_loop_slot key value t :
  put_loop key value t =
  match slot (walk key t) t with
  | nullptr =>
      (None, assign (walk key t) (Node key value nullptr nullptr) t)
  | Node current old l r =>
      (Some old, assign (walk key t) (Node current value l r) t)
  end.
Proof.
  induction t as [|current v l IHl r IHr]; simpl; [reflexivity|].
  destruct (key_eqb current key); [reflexivity|].
  destruct (key_gtb key current); simpl.
  - rewrite IHr. now destruct (slot (walk key r) r).
  - rewrite IHl. now destruct (slot (walk key l) l).
Qed.

Lemma remove_loop_slot key t :
  remove_loop key t =
  match slot (walk key t) t with
  | nullptr => (Return None, t)
  | Node current v l r =>
      if nonnull r || nonnull l
      then (Throw (invalid_argument LEAF_ONLY), t)
      else (Return (Some v), assign (walk key t) nullptr t)
  end.
Proof.
  induction t as [|current v l IHl r IHr]; simpl; [reflexivity|].
  destruct (key_eqb current key); [reflexivity|].
  destruct (key_gtb key current); simpl.
  - rewrite IHr. destruct (slot (walk key r) r) as [|c' v' l' r']; [reflexivity|].
    now destruct (nonnull r' || nonnull l').
  - rewrite IHl. destruct (slot (walk key l) l) as [|c' v' l' r']; [reflexivity|].
    now destruct (nonnull r' || nonnull l').
Qed.

Lemma get_loop_slot key t :
  get_loop key t =
  match slot (walk key t) t with
  | nullptr => None
  | Node _ v _ _ => Some v
  end.
Proof.
  induction t as [|current v l IHl r IHr]; simpl; [reflexivity|].
  destruct (key_eqb current key); [reflexivity|].
  now destruct (key_gtb key current).
Qed.

Lemma assign_slot_same t (p : list turn) : assign p (slot p t) t = t.
Proof.
  revert t. induction p as [|[|] p IH]; intros [|k v l r]; simpl;
    try reflexivity; now rewrite IH.
Qed.

Lemma node_count_assign_walk key x t :
  (node_count (assign (walk key t) x t) + node_count (slot (walk key t) t)
   = node_count t + node_count x)%nat.
Proof.
  induction t as [|current v l IHl r IHr]; simpl; [lia|].
  destruct (key_eqb current key); simpl; [lia|].
  destruct (key_gtb key current); simpl; lia.
Qed.

End Slots.

Section SlotKeys.
Context {K V : Type} {key_ops : Key K} {key_order : KeyOrder K}.
Implicit Types (t l r : tree K V) (k key : K) (v value : V).

(** A walk only stops at a node when the node holds the key. *)
Lemma walk_stops_at_key key t current v l r :
  slot (walk key t) t = Node current v l r -> current = key.
Proof.
  induction t as [|c w tl IHl tr IHr]; simpl; [discriminate|].
  walk_step c key; simpl; auto.
  intros [= -> _ _ _]. exact Heq.
Qed.

End SlotKeys.

(** ** The ordering invariant *)

Section Ordering.
Context {K V : Type} {key_ops : Key K} {key_order : KeyOrder K}.
Implicit Types (t l r : tree K V) (k key : K) (v value : V)
         (m : BinarySearchTreeMap K V).

Lemma keys_Node k v l r : keys (Node k v l r) = keys l ++ k :: keys r.
Proof. unfold keys. simpl. now rewrite map_app. Qed.

Lemma Forall_keys_Node (P : K -> Prop) k v l r :
  Forall P (keys (Node k v l r)) <->
  Forall P (keys l) /\ P k /\ Forall P (keys r).
Proof.
  rewrite keys_Node, Forall_app. split.
  - intros [Hl Hr]. inversion Hr; subst. auto.
  - intros (Hl & Hk & Hr). auto.
Qed.

Lemma Forall_keys_put_loop (P : K -> Prop) key value t :
  P key -> Forall P (keys t) ->
  Forall P (keys (snd (put_loop key value t))).
Proof.
  intros Hk. induction t as [|c w l IHl r IHr]; simpl; intros Ht.
  - repeat constructor. exact Hk.
  - apply Forall_keys_Node in Ht. destruct Ht as (Hl & Hc & Hr).
    walk_step c key; simpl.
    + apply Forall_keys_Node. auto.
    + destruct (put_loop key value r) as [ret r'] eqn:E. simpl in *.
      apply Forall_keys_Node. auto.
    + destruct (put_loop key value l) as [ret l'] eqn:E. simpl in *.
      apply Forall_keys_Node. auto.
Qed.

Lemma Forall_keys_remove_loop (P : K -> Prop) key t :
  Forall P (keys t) -> Forall P (keys (snd (remove_loop key t))).
Proof.
  induction t as [|c w l IHl r IHr]; simpl; intros Ht; [constructor|].
  pose proof Ht as Ht'.
  apply Forall_keys_Node in Ht'. destruct Ht' as (Hl & Hc & Hr).
  walk_step c key; simpl.
  - destruct (nonnull r || nonnull l); simpl; [exact Ht | constructor].
  - destruct (remove_loop key r) as [res r'] eqn:E. simpl in *.
    apply Forall_keys_Node. auto.
  - destruct (remove_loop key l) as [res l'] eqn:E. simpl in *.
    apply Forall_keys_Node. auto.
Qed.

Lemma bst_put_loop key value t : bst t -> bst (snd (put_loop key value t)).
Proof.
  induction t as [|c w l IHl r IHr]; simpl.
  - intros _. repeat split; constructor.
  - intros (Hl & Hr & Bl & Br). walk_step c key; simpl.
    + auto.
    + pose proof (Forall_keys_put_loop (fun x => key_gt x c) key value r) as F.
      destruct (put_loop key value r) as [ret r'] eqn:E. simpl in *.
      repeat split; auto.
    + pose proof (Forall_keys_put_loop (fun x => key_lt x c) key value l) as F.
      destruct (put_loop key value l) as [ret l'] eqn:E. simpl in *.
      repeat split; auto using key_lt_of_walk.
Qed.

Lemma bst_remove_loop key t : bst t -> bst (snd (remove_loop key t)).
Proof.
  induction t as [|c w l IHl r IHr]; simpl; [auto|].
  intros (Hl & Hr & Bl & Br). walk_step c key; simpl.
  - destruct (nonnull r || nonnull l); simpl; auto.
  - pose proof (Forall_keys_remove_loop (fun x => key_gt x c) key r) as F.
    destruct (remove_loop key r) as [res r'] eqn:E. simpl in *.
    repeat split; auto.
  - pose proof (Forall_keys_remove_loop (fun x => key_lt x c) key l) as F.
    destruct (remove_loop key l) as [res l'] eqn:E. simpl in *.
    repeat split; auto.
Qed.

Lemma root_put key value m :
  root (snd (put key value m)) = snd (put_loop key value (root m)).
Proof.
  unfold put. destruct (root m) as [|c w l r] eqn:E; [reflexivity|].
  destruct (put_loop key value (Node c w l r)) as [[ret|] t']; reflexivity.
Qed.

Lemma root_remove key m :
  root (snd (remove key m)) = snd (remove_loop key (root m)).
Proof.
  unfold remove.
  destruct (remove_loop key (root m)) as [[[ret|]|e] t']; reflexivity.
Qed.

Lemma bst_after (c : call K V) m : bst (root m) -> bst (root (after c m)).
Proof.
  destruct c as [key value|key|key]; simpl.
  - rewrite root_put. apply bst_put_loop.
  - rewrite root_remove. apply bst_remove_loop.
  - auto.
Qed.

(** An invariant of every call that holds of the fresh map holds of
    every reachable one. *)
Lemma reachable_ind (P : BinarySearchTreeMap K V -> Prop) :
  P empty ->
  (forall c m, reachable m -> P m -> P (after c m)) ->
  forall m, reachable m -> P m.
Proof.
  intros H0 Hstep m [cs ->].
  induction cs as [|c cs IH] using rev_ind; [exact H0|].
  unfold run in *. rewrite fold_left_app. simpl.
  apply Hstep; [now exists cs | exact IH].
Qed.

Lemma reachable_after (c : call K V) m : reachable m -> reachable (after c m).
Proof.
  intros [cs ->]. exists (cs ++ [c]). unfold run.
  now rewrite fold_left_app.
Qed.

Lemma reachable_bst m : reachable m -> bst (root m).
Proof.
  revert m. apply (reachable_ind (fun m => bst (root m))).
  - exact I.
  - intros c m' _. apply bst_after.
Qed.

(** In-order, a search tree lists its keys in strictly ascending order. *)
Lemma sorted_app (xs ys : list K) (k : K) :
  StronglySorted key_lt xs -> StronglySorted key_lt ys ->
  Forall (fun x => key_lt x k) xs -> Forall (fun y => key_gt y k) ys ->
  StronglySorted key_lt (xs ++ k :: ys).
Proof.
  intros Sx Sy Fx Fy. induction Sx as [|x xs Sx IH Hx]; simpl.
  - constructor; [exact Sy|]. exact Fy.
  - inversion Fx as [|? ? Hxk Fx']; subst.
    constructor; [now apply IH|].
    apply Forall_app. split; [exact Hx|].
    constructor; [exact Hxk|].
    eapply Forall_impl; [|exact Fy]. intros y Hy.
    unfold key_lt, key_gt in *. eapply key_gtb_trans; eassumption.
Qed.

Lemma bst_sorted t : bst t -> StronglySorted key_lt (keys t).
Proof.
  induction t as [|c w l IHl r IHr]; simpl.
  - intros _. constructor.
  - intros (Hl & Hr & Bl & Br). rewrite keys_Node.
    apply sorted_app; auto.
Qed.

Lemma sorted_NoDup (xs : list K) : StronglySorted key_lt xs -> NoDup xs.
Proof.
  induction 1 as [|x xs Sx IH Hx]; constructor; [|exact IH].
  intros Hin. rewrite Forall_forall in Hx.
  apply (key_lt_neq _ _ (Hx _ Hin)). reflexivity.
Qed.

Lemma bst_NoDup t : bst t -> NoDup (keys t).
Proof. intros B. apply sorted_NoDup, bst_sorted, B. Qed.

Lemma node_in_bst n t : node_in n t -> bst t -> bst n.
Proof.
  induction 1 as [|k v l r _ IH|k v l r _ IH]; simpl; [auto| |];
    intros (_ & _ & Bl & Br); auto.
Qed.

Lemma node_in_inorder k v l r t :
  node_in (Node k v l r) t -> In (k, v) (inorder t).
Proof.
  intros Hn. remember (Node k v l r) as n eqn:En.
  induction Hn as [|k' v' l' r' _ IH|k' v' l' r' _ IH]; subst; simpl.
  - apply in_or_app. right. now left.
  - apply in_or_app. left. auto.
  - apply in_or_app. right. right. auto.
Qed.

Lemma node_in_keys k v l r t : node_in (Node k v l r) t -> In k (keys t).
Proof.
  intros Hn. apply node_in_inorder in Hn.
  unfold keys. change k with (fst (k, v)). now apply in_map.
Qed.

End Ordering.

(** ** Lookup in a search tree *)

Section Lookup.
Context {K V : Type} {key_ops : Key K} {key_order : KeyOrder K}.
Implicit Types (t l r n : tree K V) (k key : K) (v value : V)
         (m : BinarySearchTreeMap K V).

(** In a search tree the walk for a key ends at the node that holds it. *)
Lemma walk_finds_node k v l r t :
  bst t -> node_in (Node k v l r) t -> slot (walk k t) t = Node k v l r.
Proof.
  intros B Hn. remember (Node k v l r) as n eqn:En.
  induction Hn as [Hnn|c w tl tr Hn IH|c w tl tr Hn IH].
  - subst. simpl. now rewrite key_eqb_refl.
  - destruct B as (Hl & _ & Bl & _). subst n.
    apply node_in_keys in Hn as Hk.
    rewrite Forall_forall in Hl. specialize (Hl _ Hk). simpl.
    rewrite (key_eqb_neq c k) by (apply not_eq_sym, (key_lt_neq _ _ Hl)).
    rewrite (key_gtb_asym _ _ Hl). simpl. auto.
  - destruct B as (_ & Hr & _ & Br). subst n.
    apply node_in_keys in Hn as Hk.
    rewrite Forall_forall in Hr. specialize (Hr _ Hk). simpl.
    rewrite (key_eqb_neq c k) by (apply not_eq_sym, (key_gt_neq _ _ Hr)).
    unfold key_gt in Hr. rewrite Hr. simpl. auto.
Qed.

(** What a walk stops at is a node of the tree. *)
Lemma slot_walk_node_in key t n :
  slot (walk key t) t = n -> nonnull n = true -> node_in n t.
Proof.
  induction t as [|c w l IHl r IHr]; simpl.
  - intros <-. discriminate.
  - destruct (key_eqb c key).
    + simpl. intros <- _. now constructor.
    + destruct (key_gtb key c); simpl; intros Hs Hn.
      * apply node_right. auto.
      * apply node_left. auto.
Qed.

(** Every listed pair sits in a node. *)
Lemma inorder_node_in k v t :
  In (k, v) (inorder t) -> exists l r, node_in (Node k v l r) t.
Proof.
  induction t as [|c w tl IHl tr IHr]; simpl; [contradiction|].
  intros Hin. apply in_app_or in Hin. destruct Hin as [Hin|[Heq|Hin]].
  - destruct (IHl Hin) as (l & r & Hn). exists l, r. now apply node_left.
  - inversion Heq; subst. exists tl, tr. now constructor.
  - destruct (IHr Hin) as (l & r & Hn). exists l, r. now apply node_right.
Qed.

Lemma keys_inorder k t : In k (keys t) <-> exists v, In (k, v) (inorder t).
Proof.
  unfold keys. rewrite in_map_iff. split.
  - intros [[k' v] [Hk Hin]]. simpl in Hk. subst. now exists v.
  - intros [v Hin]. now exists (k, v).
Qed.

Lemma get_loop_In k v t :
  bst t -> (get_loop k t = Some v <-> In (k, v) (inorder t)).
Proof.
  intros B. rewrite get_loop_slot. split.
  - destruct (slot (walk k t) t) as [|c w l r] eqn:E; [discriminate|].
    intros [= ->]. pose proof (walk_stops_at_key _ _ _ _ _ _ E) as ->.
    eapply node_in_inorder, slot_walk_node_in; [exact E|reflexivity].
  - intros Hin. destruct (inorder_node_in _ _ _ Hin) as (l & r & Hn).
    now rewrite (walk_finds_node _ _ _ _ _ B Hn).
Qed.

Lemma get_loop_None k t :
  bst t -> (get_loop k t = None <-> ~ In k (keys t)).
Proof.
  intros B. split.
  - intros Hg Hin. apply keys_inorder in Hin. destruct Hin as [v Hin].
    apply (get_loop_In k v t B) in Hin. congruence.
  - intros Hn. destruct (get_loop k t) as [v|] eqn:E; [|reflexivity].
    exfalso. apply Hn, keys_inorder. exists v. now apply get_loop_In.
Qed.

Lemma walk_absent k t :
  bst t -> ~ In k (keys t) -> slot (walk k t) t = nullptr.
Proof.
  intros B Hn. apply (get_loop_None k t B) in Hn.
  rewrite get_loop_slot in Hn.
  now destruct (slot (walk k t) t).
Qed.

End Lookup.

(** ** Counting nodes *)

Section Counting.
Context {K V : Type} {key_ops : Key K}.
Implicit Types (t l r n : tree K V) (k key : K) (v value : V)
         (m : BinarySearchTreeMap K V).

Lemma nonnull_false t : nonnull t = false -> t = nullptr.
Proof. destruct t; [reflexivity|discriminate]. Qed.

Lemma node_count_inorder t : node_count t = List.length (inorder t).
Proof.
  induction t as [|c w l IHl r IHr]; simpl; [reflexivity|].
  rewrite List.length_app. simpl. lia.
Qed.

Lemma node_count_keys t : node_count t = List.length (keys t).
Proof. unfold keys. now rewrite List.length_map, node_count_inorder. Qed.

Lemma node_count_put_loop key value t :
  node_count (snd (put_loop key value t)) =
  match fst (put_loop key value t) with
  | Some _ => node_count t
  | None => S (node_count t)
  end.
Proof.
  rewrite put_loop_slot.
  destruct (slot (walk key t) t) as [|c old l r] eqn:E; simpl.
  - pose proof (node_count_assign_walk key (Node key value nullptr nullptr) t) as Hc.
    rewrite E in Hc. simpl in Hc. lia.
  - pose proof (node_count_assign_walk key (Node c value l r) t) as Hc.
    rewrite E in Hc. simpl in Hc. lia.
Qed.

Lemma node_count_remove_loop key t :
  node_count t =
  match fst (remove_loop key t) with
  | Return (Some _) => S (node_count (snd (remove_loop key t)))
  | _ => node_count (snd (remove_loop key t))
  end.
Proof.
  rewrite remove_loop_slot.
  destruct (slot (walk key t) t) as [|c old l r] eqn:E; simpl; [reflexivity|].
  destruct (nonnull r || nonnull l) eqn:N; simpl; [reflexivity|].
  apply orb_false_elim in N. destruct N as [Nr Nl].
  apply nonnull_false in Nr, Nl. subst.
  pose proof (node_count_assign_walk key nullptr t) as Hc.
  rewrite E in Hc. simpl in Hc. lia.
Qed.

(** A call that does not return a value leaves the tree as it was. *)
Lemma remove_loop_unchanged key t :
  (forall v, fst (remove_loop key t) <> Return (Some v)) ->
  snd (remove_loop key t) = t.
Proof.
  rewrite remove_loop_slot.
  destruct (slot (walk key t) t) as [|c old l r]; simpl; [reflexivity|].
  destruct (nonnull r || nonnull l); simpl; [reflexivity|].
  intros Hv. now destruct (Hv old).
Qed.


Lemma size_incr_counted (n : nat) :
  size_incr (Z.of_nat n mod 2 ^ SIZE_WIDTH) =
  (Z.of_nat (S n) mod 2 ^ SIZE_WIDTH)%Z.
Proof.
  unfold size_incr. rewrite Zplus_mod_idemp_l. f_equal. lia.
Qed.

Lemma size_decr_counted (n : nat) :
  size_decr (Z.of_nat (S n) mod 2 ^ SIZE_WIDTH) =
  (Z.of_nat n mod 2 ^ SIZE_WIDTH)%Z.
Proof.
  unfold size_decr. rewrite Zminus_mod_idemp_l. f_equal. lia.
Qed.

Lemma counted_put key value m : counted m -> counted (snd (put key value m)).
Proof.
  unfold counted, put. intros Hc.
  destruct (root m) as [|c w l r] eqn:E.
  - simpl. rewrite Hc. now rewrite size_incr_counted.
  - rewrite <- E in *.
    pose proof (node_count_put_loop key value (root m)) as Hn.
    destruct (put_loop key value (root m)) as [[ret|] t']; simpl in *.
    + now rewrite Hn.
    + now rewrite Hn, Hc, size_incr_counted.
Qed.

Lemma counted_remove key m : counted m -> counted (snd (remove key m)).
Proof.
  unfold counted, remove. intros Hc.
  pose proof (node_count_remove_loop key (root m)) as Hn.
  destruct (remove_loop key (root m)) as [[[ret|]|e] t']; simpl in *.
  - now rewrite Hc, Hn, size_decr_counted.
  - now rewrite <- Hn.
  - now rewrite <- Hn.
Qed.

Lemma counted_after (c : call K V) m : counted m -> counted (after c m).
Proof.
  destruct c; simpl; auto using counted_put, counted_remove.
Qed.

Lemma size_incr_small (n : Z) :
  (0 <= n < SIZE_MAX)%Z -> size_incr n = (n + 1)%Z.
Proof. unfold size_incr, SIZE_MAX. intros Hn. apply Z.mod_small. lia. Qed.

Lemma size_decr_small (n : Z) :
  (1 <= n <= SIZE_MAX)%Z -> size_decr n = (n - 1)%Z.
Proof. unfold size_decr, SIZE_MAX. intros Hn. apply Z.mod_small. lia. Qed.

Lemma addressable_size m :
  counted m -> addressable m -> size m = Z.of_nat (node_count (root m)).
Proof.
  unfold counted, addressable, size, SIZE_MAX. intros -> Ha.
  apply Z.mod_small. lia.
Qed.

End Counting.

(** ** One key's calls leave the other keys alone *)

Section Frame.
Context {K V : Type} {key_ops : Key K} {key_order : KeyOrder K}.
Implicit Types (t l r n : tree K V) (k key : K) (v value : V)
         (m : BinarySearchTreeMap K V).

Lemma get_put_loop_same k v t : get_loop k (snd (put_loop k v t)) = Some v.
Proof.
  induction t as [|c w l IHl r IHr]; simpl.
  - now rewrite key_eqb_refl.
  - destruct (key_eqb c k) eqn:E; simpl.
    + now rewrite E.
    + destruct (key_gtb k c) eqn:G.
      * destruct (put_loop k v r) as [ret r']. simpl in *. now rewrite E, G.
      * destruct (put_loop k v l) as [ret l']. simpl in *. now rewrite E, G.
Qed.

Lemma get_put_loop_other k k' v t :
  k' <> k -> get_loop k' (snd (put_loop k v t)) = get_loop k' t.
Proof.
  intros Hk. induction t as [|c w l IHl r IHr]; simpl.
  - rewrite (key_eqb_neq k k') by auto. now destruct (key_gtb k' k).
  - walk_step c k; simpl.
    + subst c. now rewrite (key_eqb_neq k k') by auto.
    + destruct (put_loop k v r) as [ret r']. simpl in *. now rewrite IHr.
    + destruct (put_loop k v l) as [ret l']. simpl in *. now rewrite IHl.
Qed.

Lemma get_remove_loop_other k k' t :
  k' <> k -> get_loop k' (snd (remove_loop k t)) = get_loop k' t.
Proof.
  intros Hk. induction t as [|c w l IHl r IHr]; simpl; [reflexivity|].
  walk_step c k; simpl.
  - subst c. destruct (nonnull r || nonnull l) eqn:N; simpl; [reflexivity|].
    apply orb_false_elim in N. destruct N as [Nr Nl].
    apply nonnull_false in Nr, Nl. subst.
    rewrite (key_eqb_neq k k') by auto. now destruct (key_gtb k' k).
  - destruct (remove_loop k r) as [res r']. simpl in *. now rewrite IHr.
  - destruct (remove_loop k l) as [res l']. simpl in *. now rewrite IHl.
Qed.

Lemma get_after_other (c : call K V) k m :
  overwrites k c = false ->
  (forall key, c = Remove key -> key <> k) ->
  fst (get k (after c m)) = fst (get k m).
Proof.
  destruct c as [key value|key|key]; simpl; intros Ho Hr.
  - rewrite root_put. apply get_put_loop_other.
    apply not_eq_sym, key_eqb_false, Ho.
  - rewrite root_remove. apply get_remove_loop_other.
    apply not_eq_sym, Hr. reflexivity.
  - reflexivity.
Qed.

(** A [remove] that returns no value leaves the whole map as it was. *)
Lemma remove_unchanged key m :
  (forall v, fst (remove key m) <> Return (Some v)) ->
  snd (remove key m) = m.
Proof.
  unfold remove. pose proof (remove_loop_unchanged key (root m)) as Hu.
  destruct (remove_loop key (root m)) as [[[ret|]|e] t']; simpl in *.
  - intros Hv. now destruct (Hv ret).
  - intros _. rewrite Hu by discriminate. now destruct m.
  - intros _. rewrite Hu by discriminate. now destruct m.
Qed.

Lemma get_after_left_alone (c : call K V) k m :
  overwrites k c = false -> removes k c m = false ->
  fst (get k (after c m)) = fst (get k m).
Proof.
  intros Ho Hr. destruct c as [key value|key|key].
  - apply get_after_other; [exact Ho | discriminate].
  - simpl in Hr. destruct (key_eqb key k) eqn:E.
    + simpl in Hr. change (after (Remove key) m) with (snd (remove key m)).
      rewrite remove_unchanged; [reflexivity|].
      intros v Hv. rewrite Hv in Hr. discriminate.
    + apply get_after_other; [reflexivity|].
      intros key' [= <-]. now apply key_eqb_false.
  - reflexivity.
Qed.

Lemma get_run_left_alone k (cs : list (call K V)) m :
  left_alone k cs m = true ->
  fst (get k (run cs m)) = fst (get k m).
Proof.
  revert m. induction cs as [|c cs IH]; intros m Hl; [reflexivity|].
  simpl in Hl. apply andb_prop in Hl. destruct Hl as [Hl Hcs].
  apply andb_prop in Hl. destruct Hl as [Ho Hr].
  apply negb_true_iff in Ho, Hr.
  change (run (c :: cs) m) with (run cs (after c m)).
  rewrite IH by exact Hcs. now apply get_after_left_alone.
Qed.

Lemma get_run_never_put k (cs : list (call K V)) m :
  never_put k cs = true -> fst (get k m) = None ->
  fst (get k (run cs m)) = None.
Proof.
  revert m. induction cs as [|c cs IH]; intros m Hn Hg; [exact Hg|].
  simpl in Hn. apply andb_prop in Hn. destruct Hn as [Ho Hcs].
  apply negb_true_iff in Ho.
  change (run (c :: cs) m) with (run cs (after c m)).
  apply IH; [exact Hcs|].
  destruct c as [key value|key|key].
  - rewrite get_after_other; [exact Hg | exact Ho | discriminate].
  - destruct (key_eqb key k) eqn:E.
    + apply key_eqb_eq in E. subst key. simpl in *.
      rewrite root_remove, remove_loop_slot.
      pose proof Hg as Hs. rewrite get_loop_slot in Hs.
      destruct (slot (walk k (root m)) (root m)); [exact Hg|discriminate].
    + rewrite get_after_other; [exact Hg | reflexivity |].
      intros key' [= <-]. now apply key_eqb_false.
  - exact Hg.
Qed.

End Frame.

(** ** The stream [toString] writes *)

Section Strings.

Lemma append_assoc (a b c : string) :
  ((a ++ b) ++ c = a ++ (b ++ c))%string.
Proof. induction a as [|x a IH]; simpl; [reflexivity|]. now rewrite IH. Qed.

Lemma append_empty_r (a : string) : (a ++ "" = a)%string.
Proof. induction a as [|x a IH]; simpl; [reflexivity|]. now rewrite IH. Qed.

End Strings.

Section Rendering.
Context {K V : Type} {show_key : Show K} {show_value : Show V}.
Implicit Types (t l r n node : tree K V) (k key : K) (v value : V)
         (m : BinarySearchTreeMap K V) (stack : list (tree K V)).


Lemma render_app (xs ys : list (K * V)) :
  render (xs ++ ys) = (render xs ++ render ys)%string.
Proof.
  induction xs as [|[k v] xs IH]; simpl; [reflexivity|].
  rewrite IH. repeat (rewrite append_assoc; simpl). reflexivity.
Qed.

Lemma stream_entry_render (s : string) k v :
  stream_entry s k v = (s ++ render [(k, v)])%string.
Proof.
  unfold stream_entry. simpl. repeat (rewrite append_assoc; simpl).
  reflexivity.
Qed.

Lemma toString_loop_runs (fuel : nat) :
  forall stack node (s : string),
    forallb nonnull stack = true ->
    2 * node_count node + owed stack < fuel ->
    toString_loop fuel stack node s =
    Some (s ++ render (inorder node ++ pending stack))%string.
Proof.
  induction fuel as [|fuel IH]; intros stack node s Hnn Hf; [lia|].
  destruct node as [|k v l r]; cbn [toString_loop].
  - destruct stack as [|[|k v l r] stack].
    + simpl. now rewrite append_empty_r.
    + discriminate.
    + simpl in Hnn, Hf. rewrite IH by (auto; lia).
      rewrite stream_entry_render, append_assoc.
      change (inorder nullptr ++ pending (Node k v l r :: stack))
        with ([(k, v)] ++ (inorder r ++ pending stack)).
      now rewrite (render_app [(k, v)]).
  - rewrite IH.
    + simpl. now rewrite <- app_assoc.
    + simpl. exact Hnn.
    + simpl in *. lia.
Qed.

Lemma toString_with_runs (fuel : nat) m :
  toString_bound m <= fuel ->
  toString_with fuel m =
  Some ("[ " ++ render (inorder (root m)) ++ "]")%string.
Proof.
  unfold toString_bound, toString_with. intros Hf.
  rewrite toString_loop_runs by (simpl; auto; lia).
  simpl. now rewrite app_nil_r.
Qed.

End Rendering.

(** ** [int] keys are totally ordered *)

#[export] Instance int_KeyOrder : KeyOrder Z.
Proof.
  constructor; simpl.
  - apply Z.eqb_eq.
  - intros a. rewrite Z.gtb_ltb. apply Z.ltb_irrefl.
  - intros a b c. rewrite !Z.gtb_ltb, !Z.ltb_lt. lia.
  - intros a b. rewrite !Z.gtb_ltb, !Z.ltb_lt. lia.
Qed.


(** * The claims *)

Section Claims.
Context {K V : Type} {key_ops : Key K} {key_order : KeyOrder K}.
Context {show_key : Show K} {show_value : Show V}.
Implicit Types (t l r n : tree K V) (k key : K) (v value : V)
         (m : BinarySearchTreeMap K V).

Lemma reachable_counted m : reachable m -> counted m.
Proof.
  revert m. apply (reachable_ind (fun m => counted m)).
  - reflexivity.
  - intros c m _. apply counted_after.
Qed.

Lemma reachable_size m :
  reachable m -> addressable m -> size m = Z.of_nat (node_count (root m)).
Proof. intros R. apply addressable_size, reachable_counted, R. Qed.

(** C1.  In every state reachable by put, get and remove calls, each node's
  left subtree holds only keys strictly less than the node's key and its
  right subtree only keys strictly greater, and no key is held by two
  nodes. *)
Theorem ordering_invariant m :
  reachable m ->
  (forall k v l r,
      node_in (Node k v l r) (root m) ->
      Forall (fun x => key_lt x k) (keys l) /\
      Forall (fun x => key_gt x k) (keys r)) /\
  NoDup (keys (root m)).
Proof.
  intros R. pose proof (reachable_bst m R) as B. split.
  - intros k v l r Hn.
    pose proof (node_in_bst _ _ Hn B) as Bn. simpl in Bn. tauto.
  - apply bst_NoDup, B.
Qed.

(** C2.  In every reachable state whose nodes a size_t can count, size()
  is the number of nodes of the tree, which is the number of its keys,
  all distinct.  A put of a key not in the tree adds one to it, a put of
  a key in the tree leaves it, a remove that returns a value takes one
  off it, and a remove that throws or finds no key leaves it. *)
Theorem size_consistency m :
  reachable m -> addressable m ->
  size m = Z.of_nat (node_count (root m)) /\
  node_count (root m) = List.length (keys (root m)) /\
  NoDup (keys (root m)) /\
  (forall k v, ~ In k (keys (root m)) ->
               addressable (snd (put k v m)) ->
               size (snd (put k v m)) = (size m + 1)%Z) /\
  (forall k v, In k (keys (root m)) ->
               size (snd (put k v m)) = size m) /\
  (forall k v, fst (remove k m) = Return (Some v) ->
               size (snd (remove k m)) = (size m - 1)%Z) /\
  (forall k e, fst (remove k m) = Throw e ->
               size (snd (remove k m)) = size m) /\
  (forall k, fst (remove k m) = Return None ->
             size (snd (remove k m)) = size m).
Proof.
  intros R A. pose proof (reachable_bst m R) as B.
  pose proof (reachable_size m R A) as Hs.
  split; [exact Hs|]. split; [apply node_count_keys|].
  split; [apply bst_NoDup, B|]. repeat split.
  - intros k v Hk A'.
    pose proof (reachable_after (Put k v) m R) as R'. simpl in R'.
    rewrite (reachable_size _ R' A'), Hs, root_put, node_count_put_loop.
    rewrite put_loop_slot, (walk_absent k (root m) B Hk). simpl. lia.
  - intros k v Hk. apply keys_inorder in Hk. destruct Hk as [w Hk].
    destruct (inorder_node_in _ _ _ Hk) as (l & r & Hn).
    pose proof (walk_finds_node _ _ _ _ _ B Hn) as Hw.
    unfold put, size. destruct (root m) as [|c x tl tr] eqn:E.
    + inversion Hn.
    + rewrite put_loop_slot, Hw. reflexivity.
  - intros k v Hr.
    pose proof (node_count_remove_loop k (root m)) as Hn.
    unfold remove, size in *.
    destruct (remove_loop k (root m)) as [[[ret|]|e] t'];
      simpl in Hr, Hn |- *; try discriminate.
    apply size_decr_small. unfold addressable in A. lia.
  - intros k e Hr. unfold remove, size in *.
    destruct (remove_loop k (root m)) as [[[ret|]|e'] t'];
      simpl in *; try discriminate; reflexivity.
  - intros k Hr. unfold remove, size in *.
    destruct (remove_loop k (root m)) as [[[ret|]|e'] t'];
      simpl in *; try discriminate; reflexivity.
Qed.

(** C3.  In a reachable state, remove of a key whose node has a child
  throws invalid_argument with the message "ERROR: Only leaf nodes can be
  removed." and leaves the map, tree and counter, exactly as it was. *)
Theorem remove_inner_node_throws m k v l r :
  reachable m ->
  node_in (Node k v l r) (root m) ->
  l <> nullptr \/ r <> nullptr ->
  remove k m =
  (Throw (invalid_argument "ERROR: Only leaf nodes can be removed."), m).
Proof.
  intros R Hn Hc. pose proof (reachable_bst m R) as B.
  unfold remove.
  rewrite remove_loop_slot, (walk_finds_node _ _ _ _ _ B Hn).
  assert (nonnull r || nonnull l = true) as ->.
  { destruct Hc as [Hc|Hc]; [destruct l|destruct r]; simpl;
      try contradiction; auto using orb_true_r. }
  destruct m; reflexivity.
Qed.

(** C4.  In a reachable state whose nodes a size_t can count, remove of a
  key held by a leaf returns the leaf's value, empties the slot the leaf
  was in and nothing else, and takes exactly one off size(); remove of a
  key that is in no node returns the empty result and leaves the map as
  it was. *)
Theorem remove_leaf_or_absent m k :
  reachable m ->
  (forall v,
      node_in (Node k v nullptr nullptr) (root m) ->
      addressable m ->
      fst (remove k m) = Return (Some v) /\
      slot (walk k (root m)) (root m) = Node k v nullptr nullptr /\
      root (snd (remove k m)) = assign (walk k (root m)) nullptr (root m) /\
      size (snd (remove k m)) = (size m - 1)%Z) /\
  (~ In k (keys (root m)) -> remove k m = (Return None, m)).
Proof.
  intros R. pose proof (reachable_bst m R) as B. split.
  - intros v Hn A.
    pose proof (walk_finds_node _ _ _ _ _ B Hn) as Hw.
    pose proof (reachable_size m R A) as Hs.
    pose proof (node_count_assign_walk k nullptr (root m)) as Hc.
    rewrite Hw in Hc. simpl in Hc.
    unfold remove, size in *. rewrite remove_loop_slot, Hw. simpl.
    repeat split; auto.
    apply size_decr_small. unfold addressable in A. lia.
  - intros Hk. unfold remove.
    rewrite remove_loop_slot, (walk_absent k (root m) B Hk).
    destruct m; reflexivity.
Qed.

Lemma put_reachable_reachable m : put_reachable m -> reachable m.
Proof. intros (cs & _ & ->). now exists cs. Qed.

Lemma filter_key_absent k (es : list (K * V)) :
  ~ In k (map fst es) -> filter (fun e => key_eqb (fst e) k) es = [].
Proof.
  induction es as [|[k' v'] es IH]; simpl; [reflexivity|].
  intros Hn. rewrite (key_eqb_neq k' k) by tauto. apply IH. tauto.
Qed.

Lemma filter_key_NoDup k v (es : list (K * V)) :
  NoDup (map fst es) -> In (k, v) es ->
  filter (fun e => key_eqb (fst e) k) es = [(k, v)].
Proof.
  induction es as [|[k' v'] es IH]; simpl; [contradiction|].
  intros Hd Hin. inversion Hd as [|? ? Hk' Hd']; subst.
  destruct Hin as [[= -> ->]|Hin].
  - rewrite key_eqb_refl. f_equal. now apply filter_key_absent.
  - assert (k' <> k) as Hne.
    { intros ->. apply Hk'. change k with (fst (k, v)). now apply in_map. }
    rewrite (key_eqb_neq k' k) by exact Hne. auto.
Qed.

Lemma entries_of_bst k v t :
  bst t -> In (k, v) (inorder t) -> entries_of k t = [(k, v)].
Proof.
  intros B Hin. apply filter_key_NoDup; [|exact Hin]. apply (bst_NoDup t B).
Qed.

(** C5.  After any calls, a put of [k] with [v], and further calls none of
    which puts [k] again or removes it, get of [k] returns [v]; after any
    calls none of which puts [k], and so on the fresh map, get of [k]
    returns the empty result; and get hands the map back as it was. *)
Theorem get_round_trip k :
  (forall (cs1 cs2 : list (call K V)) v,
      left_alone k cs2 (run (cs1 ++ [Put k v]) empty) = true ->
      fst (get k (run (cs1 ++ Put k v :: cs2) empty)) = Some v) /\
  (forall cs : list (call K V),
      never_put k cs = true -> fst (get k (run cs empty)) = None) /\
  (forall m, snd (get k m) = m).
Proof.
  split; [|split].
  - intros cs1 cs2 v Hl.
    replace (cs1 ++ Put k v :: cs2) with ((cs1 ++ [Put k v]) ++ cs2)
      by now rewrite <- app_assoc.
    unfold run at 1. rewrite fold_left_app. fold (run (cs1 ++ [Put k v]) empty).
    fold (run cs2 (run (cs1 ++ [Put k v]) empty)).
    rewrite get_run_left_alone by exact Hl.
    unfold run. rewrite fold_left_app. simpl.
    rewrite root_put. apply get_put_loop_same.
  - intros cs Hn. now apply get_run_never_put.
  - reflexivity.
Qed.

(** C6.  In a reachable state that holds no node for [k], put of [k] and
    [v] finds the slot its walk ends at empty (a child slot, or the root of
    an empty tree), stores a new leaf with [k] and [v] there and changes
    nothing else, adds one to the counter, and returns the empty
    result. *)
Theorem put_fresh_key m k v :
  reachable m ->
  ~ In k (keys (root m)) ->
  addressable (snd (put k v m)) ->
  slot (walk k (root m)) (root m) = nullptr /\
  put k v m =
  (None,
   {| size_ := (size m + 1)%Z;
      root := assign (walk k (root m)) (Node k v nullptr nullptr) (root m) |}).
Proof.
  intros R Hk A'. pose proof (reachable_bst m R) as B.
  pose proof (walk_absent k (root m) B Hk) as Hw.
  split; [exact Hw|].
  assert (size_incr (size_ m) = (size_ m + 1)%Z) as Hi.
  { unfold addressable in A'.
    rewrite root_put, node_count_put_loop, put_loop_slot, Hw in A'.
    simpl in A'. apply size_incr_small.
    pose proof (reachable_counted m R) as C.
    assert (addressable m) as A by (unfold addressable; lia).
    pose proof (addressable_size m C A) as Hs. unfold size in Hs. lia. }
  unfold put, size. destruct (root m) as [|c w l r] eqn:E.
  - simpl. now rewrite Hi.
  - rewrite put_loop_slot, Hw, Hi. reflexivity.
Qed.

(** C7.  From a reachable state, put of [k] with [v1] and then of [k] with
    [v2]: the second call returns [v1]; afterwards the tree lists one pair
    for [k], which is [(k, v2)], and get of [k] returns [v2]; the second
    call stores [v2] in the node that held [v1], with the same children in
    the same slot, and leaves size() as it was. *)
Theorem put_overwrites m k v1 v2 m1 m2 :
  reachable m ->
  m1 = snd (put k v1 m) ->
  m2 = snd (put k v2 m1) ->
  fst (put k v2 m1) = Some v1 /\
  entries_of k (root m2) = [(k, v2)] /\
  fst (get k m2) = Some v2 /\
  size m2 = size m1 /\
  exists l r,
    slot (walk k (root m1)) (root m1) = Node k v1 l r /\
    root m2 = assign (walk k (root m1)) (Node k v2 l r) (root m1).
Proof.
  intros R E1 E2.
  assert (reachable m1) as R1 by (subst m1; apply (reachable_after (Put k v1) m R)).
  assert (reachable m2) as R2 by (subst m2; apply (reachable_after (Put k v2) m1 R1)).
  pose proof (reachable_bst m1 R1) as B1.
  pose proof (reachable_bst m2 R2) as B2.
  assert (get_loop k (root m1) = Some v1) as G1.
  { subst m1. rewrite root_put. apply get_put_loop_same. }
  assert (get_loop k (root m2) = Some v2) as G2.
  { subst m2. rewrite root_put. apply get_put_loop_same. }
  apply (get_loop_In k v1 (root m1) B1) in G1 as Hin.
  destruct (inorder_node_in _ _ _ Hin) as (l & r & Hn).
  pose proof (walk_finds_node _ _ _ _ _ B1 Hn) as Hw.
  assert (put k v2 m1 =
          (Some v1, {| size_ := size_ m1;
                       root := assign (walk k (root m1)) (Node k v2 l r) (root m1) |}))
    as Hp.
  { unfold put. destruct (root m1) as [|c w tl tr] eqn:E; [inversion Hn|].
    now rewrite put_loop_slot, Hw. }
  rewrite Hp in E2. simpl in E2.
  split; [now rewrite Hp|].
  split; [apply entries_of_bst; [exact B2 | now apply get_loop_In]|].
  split; [exact G2|].
  split; [now subst m2|].
  exists l, r. split; [exact Hw | now subst m2].
Qed.

(** C8.  In every state reachable by put calls alone, toString() ends,
    within the iterations its loop needs, with an opening bracket and a
    space, then each pair of the in-order traversal as [(k, v)] and a
    space, then a closing bracket; the keys of that traversal are strictly
    ascending, it lists exactly the pairs get finds, each once; and the
    fresh map gives "[ ]". *)
Theorem toString_ascending m :
  put_reachable m ->
  (forall fuel, toString_bound m <= fuel ->
     toString_with fuel m =
     Some ("[ " ++ render (inorder (root m)) ++ "]")%string) /\
  toString m = Some ("[ " ++ render (inorder (root m)) ++ "]")%string /\
  StronglySorted key_lt (map fst (inorder (root m))) /\
  (forall k v, In (k, v) (inorder (root m)) <-> fst (get k m) = Some v) /\
  NoDup (inorder (root m)) /\
  toString (@empty K V) = Some "[ ]".
Proof.
  intros P. pose proof (reachable_bst m (put_reachable_reachable m P)) as B.
  repeat split.
  - intros fuel Hf. now apply toString_with_runs.
  - apply toString_with_runs. constructor.
  - apply (bst_sorted (root m) B).
  - intros Hin. now apply get_loop_In.
  - intros Hg. now apply get_loop_In in Hg.
  - apply (NoDup_map_inv fst), (bst_NoDup (root m) B).
Qed.

(** C10.  In a reachable state, remove of a key [k] held by a leaf returns
    its value and leaves every other key where it was: a key [k'] other
    than [k] that the tree held is still held, and get of [k'] returns the
    value it returned before. *)
Theorem remove_leaf_frame m k v k' :
  reachable m ->
  node_in (Node k v nullptr nullptr) (root m) ->
  k' <> k ->
  In k' (keys (root m)) ->
  fst (remove k m) = Return (Some v) /\
  In k' (keys (root (snd (remove k m)))) /\
  exists v',
    fst (get k' m) = Some v' /\
    fst (get k' (snd (remove k m))) = Some v'.
Proof.
  intros R Hn Hne Hin. pose proof (reachable_bst m R) as B.
  pose proof (reachable_bst _ (reachable_after (Remove k) m R)) as B'.
  simpl in B'.
  apply keys_inorder in Hin. destruct Hin as [v' Hin].
  apply (get_loop_In k' v' (root m) B) in Hin.
  assert (get_loop k' (root (snd (remove k m))) = Some v') as Hg.
  { rewrite root_remove, get_remove_loop_other; auto. }
  split; [|split].
  - unfold remove.
    now rewrite remove_loop_slot, (walk_finds_node _ _ _ _ _ B Hn).
  - apply keys_inorder. exists v'. now apply get_loop_In.
  - exists v'. split; [exact Hin | exact Hg].
Qed.

End Claims.

(** C9.  The run of [main]: after its eight put calls size() is 8;
    remove(2) returns "two" and size() is 7; remove(8) returns the empty
    result and remove(4) throws, both leaving the map, so size() stays 7;
    get(5) returns "five", get(8) the empty result, and toString() gives
    the seven remaining pairs in ascending key order. *)
Theorem main_scenario :
  size (@empty Z string) = 0%Z /\
  size main_map8 = 8%Z /\
  remove 2%Z main_map8 = (Return (Some "two"), main_map7) /\
  size main_map7 = 7%Z /\
  remove 8%Z main_map7 = (Return None, main_map7) /\
  remove 4%Z main_map7 =
  (Throw (invalid_argument "ERROR: Only leaf nodes can be removed."),
   main_map7) /\
  get 5%Z main_map7 = (Some "five", main_map7) /\
  get 8%Z main_map7 = (None, main_map7) /\
  toString main_map7 =
  Some "[ (0, zero) (1, one) (3, three) (4, four) (5, five) (6, six) (7, seven) ]".
Proof. repeat split. Qed.

(** * The claims on the map of [main] *)

Lemma main_map8_reachable : reachable main_map8.
Proof. exists main_puts. reflexivity. Defined.

Lemma main_map8_addressable : addressable main_map8.
Proof. unfold addressable. vm_compute. discriminate. Defined.

Lemma ordering_invariant_witness :
  reachable main_map8 /\
  ((forall k v l r,
       node_in (Node k v l r) (root main_map8) ->
       Forall (fun x => key_lt x k) (keys l) /\
       Forall (fun x => key_gt x k) (keys r)) /\
   NoDup (keys (root main_map8))).
Proof.
  split; [exact main_map8_reachable|].
  apply (@ordering_invariant Z string int_Key int_KeyOrder main_map8).
  exact main_map8_reachable.
Defined.

Lemma size_consistency_witness :
  reachable main_map8 /\ addressable main_map8 /\
  size main_map8 = Z.of_nat (node_count (root main_map8)) /\
  size (snd (put 8%Z "eight" main_map8)) = (size main_map8 + 1)%Z /\
  size (snd (put 5%Z "cinq" main_map8)) = size main_map8 /\
  size (snd (remove 2%Z main_map8)) = (size main_map8 - 1)%Z /\
  size (snd (remove 4%Z main_map8)) = size main_map8 /\
  size (snd (remove 8%Z main_map8)) = size main_map8.
Proof.
  split; [exact main_map8_reachable|].
  split; [exact main_map8_addressable|].
  destruct (@size_consistency Z string int_Key int_KeyOrder main_map8
              main_map8_reachable main_map8_addressable)
    as (Hs & _ & _ & Hnew & Hold & Hleaf & Hthrow & Habsent).
  split; [exact Hs|].
  split.
  { apply Hnew.
    - cbv. intuition discriminate.
    - unfold addressable. vm_compute. discriminate. }
  split.
  { apply Hold. cbv. auto 10. }
  split.
  { apply (Hleaf 2%Z "two"). reflexivity. }
  split.
  { apply (Hthrow 4%Z (invalid_argument LEAF_ONLY)). reflexivity. }
  apply Habsent. reflexivity.
Defined.

Lemma remove_inner_node_throws_witness :
  reachable main_map8 /\
  node_in (Node 3%Z "three"
             (Node 1%Z "one" (Node 0%Z "zero" nullptr nullptr)
                (Node 2%Z "two" nullptr nullptr))
             nullptr)
          (root main_map8) /\
  remove 3%Z main_map8 =
  (Throw (invalid_argument "ERROR: Only leaf nodes can be removed."),
   main_map8).
Proof.
  split; [exact main_map8_reachable|].
  assert (node_in (Node 3%Z "three"
                     (Node 1%Z "one" (Node 0%Z "zero" nullptr nullptr)
                        (Node 2%Z "two" nullptr nullptr))
                     nullptr)
                  (root main_map8)) as Hn.
  { apply node_left. apply node_here. reflexivity. }
  split; [exact Hn|].
  apply (@remove_inner_node_throws Z string int_Key int_KeyOrder main_map8
           3%Z "three" _ _ main_map8_reachable Hn).
  left. discriminate.
Defined.

Lemma remove_leaf_or_absent_witness :
  reachable main_map8 /\
  node_in (Node 2%Z "two" nullptr nullptr) (root main_map8) /\
  addressable main_map8 /\
  (fst (remove 2%Z main_map8) = Return (Some "two") /\
   slot (walk 2%Z (root main_map8)) (root main_map8) =
   Node 2%Z "two" nullptr nullptr /\
   root (snd (remove 2%Z main_map8)) =
   assign (walk 2%Z (root main_map8)) nullptr (root main_map8) /\
   size (snd (remove 2%Z main_map8)) = (size main_map8 - 1)%Z) /\
  ~ In 8%Z (keys (root main_map8)) /\
  remove 8%Z main_map8 = (Return None, main_map8).
Proof.
  split; [exact main_map8_reachable|].
  assert (node_in (Node 2%Z "two" nullptr nullptr) (root main_map8)) as Hn.
  { apply node_left, node_left, node_right, node_here. reflexivity. }
  split; [exact Hn|].
  split; [exact main_map8_addressable|].
  assert (~ In 8%Z (keys (root main_map8))) as Ha.
  { cbv. intuition discriminate. }
  split.
  { exact (proj1 (@remove_leaf_or_absent Z string int_Key int_KeyOrder
                    main_map8 2%Z main_map8_reachable)
                 "two" Hn main_map8_addressable). }
  split; [exact Ha|].
  exact (proj2 (@remove_leaf_or_absent Z string int_Key int_KeyOrder
                  main_map8 8%Z main_map8_reachable) Ha).
Defined.

Lemma get_round_trip_witness :
  left_alone 5%Z [Put 6%Z "six"; Remove 5%Z; Get 5%Z; Remove 6%Z]
             (run ([Put 4%Z "four"] ++ [Put 5%Z "five"]) empty) = true /\
  fst (get 5%Z
         (run ([Put 4%Z "four"] ++
               Put 5%Z "five" ::
               [Put 6%Z "six"; Remove 5%Z; Get 5%Z; Remove 6%Z])
              empty)) = Some "five" /\
  never_put 5%Z [Put 4%Z "four"; Remove 5%Z; Put 6%Z "six"] = true /\
  fst (get 5%Z (run [Put 4%Z "four"; Remove 5%Z; Put 6%Z "six"] empty))
  = None /\
  snd (get 5%Z main_map8) = main_map8.
Proof.
  destruct (@get_round_trip Z string int_Key int_KeyOrder 5%Z)
    as (Hput & Hnever & Hsame).
  split; [reflexivity|].
  split; [apply Hput; reflexivity|].
  split; [reflexivity|].
  split; [apply Hnever; reflexivity|].
  apply Hsame.
Defined.

Lemma main_map7_reachable : reachable main_map7.
Proof. exists (main_puts ++ [Remove 2%Z]). reflexivity. Defined.

Lemma put_fresh_key_witness :
  reachable main_map7 /\
  ~ In 2%Z (keys (root main_map7)) /\
  addressable (snd (put 2%Z "deux" main_map7)) /\
  slot (walk 2%Z (root main_map7)) (root main_map7) = nullptr /\
  put 2%Z "deux" main_map7 =
  (None,
   {| size_ := (size main_map7 + 1)%Z;
      root := assign (walk 2%Z (root main_map7))
                     (Node 2%Z "deux" nullptr nullptr) (root main_map7) |}).
Proof.
  split; [exact main_map7_reachable|].
  assert (~ In 2%Z (keys (root main_map7))) as Ha.
  { cbv. intuition discriminate. }
  assert (addressable (snd (put 2%Z "deux" main_map7))) as Hb.
  { unfold addressable. vm_compute. discriminate. }
  split; [exact Ha|]. split; [exact Hb|].
  exact (@put_fresh_key Z string int_Key int_KeyOrder main_map7 2%Z "deux"
           main_map7_reachable Ha Hb).
Defined.

Lemma put_overwrites_witness :
  reachable main_map7 /\
  fst (put 9%Z "neuf" (snd (put 9%Z "nine" main_map7))) = Some "nine" /\
  entries_of 9%Z
    (root (snd (put 9%Z "neuf" (snd (put 9%Z "nine" main_map7)))))
  = [(9%Z, "neuf")] /\
  fst (get 9%Z (snd (put 9%Z "neuf" (snd (put 9%Z "nine" main_map7)))))
  = Some "neuf" /\
  size (snd (put 9%Z "neuf" (snd (put 9%Z "nine" main_map7))))
  = size (snd (put 9%Z "nine" main_map7)).
Proof.
  split; [exact main_map7_reachable|].
  destruct (@put_overwrites Z string int_Key int_KeyOrder main_map7
              9%Z "nine" "neuf" _ _ main_map7_reachable eq_refl eq_refl)
    as (Hret & Hone & Hget & Hsize & _).
  split; [exact Hret|]. split; [exact Hone|]. split; [exact Hget|].
  exact Hsize.
Defined.

Lemma toString_ascending_witness :
  put_reachable main_map8 /\
  toString main_map8 =
  Some ("[ " ++ render (inorder (root main_map8)) ++ "]")%string /\
  StronglySorted key_lt (map fst (inorder (root main_map8))) /\
  NoDup (inorder (root main_map8)).
Proof.
  assert (put_reachable main_map8) as Hp.
  { exists main_puts. split; reflexivity. }
  split; [exact Hp|].
  destruct (@toString_ascending Z string int_Key int_KeyOrder
              int_Show string_Show main_map8 Hp)
    as (_ & Hs & Hsorted & _ & Hnodup & _).
  split; [exact Hs|]. split; [exact Hsorted|]. exact Hnodup.
Defined.

Lemma remove_leaf_frame_witness :
  reachable main_map8 /\
  node_in (Node 2%Z "two" nullptr nullptr) (root main_map8) /\
  1%Z <> 2%Z /\
  In 1%Z (keys (root main_map8)) /\
  fst (remove 2%Z main_map8) = Return (Some "two") /\
  In 1%Z (keys (root (snd (remove 2%Z main_map8)))) /\
  exists v',
    fst (get 1%Z main_map8) = Some v' /\
    fst (get 1%Z (snd (remove 2%Z main_map8))) = Some v'.
Proof.
  split; [exact main_map8_reachable|].
  assert (node_in (Node 2%Z "two" nullptr nullptr) (root main_map8)) as Hn.
  { apply node_left, node_left, node_right, node_here. reflexivity. }
  assert (1%Z <> 2%Z) as Hne by discriminate.
  assert (In 1%Z (keys (root main_map8))) as Hin by (cbv; auto 10).
  split; [exact Hn|]. split; [exact Hne|]. split; [exact Hin|].
  exact (@remove_leaf_frame Z string int_Key int_KeyOrder main_map8
           2%Z "two" 1%Z main_map8_reachable Hn Hne Hin).
Defined.

(** * Further properties of the methods *)

(** ** What [put] and [remove] return, and what [get] sees afterwards *)

Section Returns.
Context {K V : Type} {key_ops : Key K}.
Implicit Types (t l r n : tree K V) (k key : K) (v value : V)
         (m : BinarySearchTreeMap K V).

Lemma get_remove_loop_gone key t v :
  fst (remove_loop key t) = Return (Some v) ->
  get_loop key (snd (remove_loop key t)) = None.
Proof.
  induction t as [|c w l IHl r IHr]; simpl; [discriminate|].
  destruct (key_eqb c key) eqn:E.
  - destruct (nonnull r || nonnull l); simpl; [discriminate|reflexivity].
  - destruct (key_gtb key c) eqn:G.
    + destruct (remove_loop key r) as [res r']. simpl in *.
      rewrite E, G. exact IHr.
    + destruct (remove_loop key l) as [res l']. simpl in *.
      rewrite E, G. exact IHl.
Qed.

Lemma remove_absent key m :
  fst (get key m) = None -> remove key m = (Return None, m).
Proof.
  unfold get, remove. simpl. rewrite get_loop_slot, remove_loop_slot.
  destruct (slot (walk key (root m)) (root m)); [|discriminate].
  intros _. now destruct m.
Qed.

Lemma put_returns_none key value t :
  get_loop key t = None -> fst (put_loop key value t) = None.
Proof.
  rewrite get_loop_slot, put_loop_slot.
  now destruct (slot (walk key t) t).
Qed.

(** X1.  [put] returns what [get] would have returned just before it, in every
    state: the old value of a key that is there, the empty result for a key
    that is not. *)
Theorem put_returns_previous m k v : fst (put k v m) = fst (get k m).
Proof.
  unfold put, get. simpl. destruct (root m) as [|c w l r] eqn:E.
  - reflexivity.
  - rewrite put_loop_slot, get_loop_slot.
    now destruct (slot (walk k (Node c w l r)) (Node c w l r)).
Qed.

(** X4.  The three ways [remove] can end, in every state.  With the empty
    result, [get] found nothing and the map is as it was.  With a value, it
    is the value [get] found, [get] finds nothing afterwards, and a second
    [remove] of the key returns the empty result.  With an exception, it is
    invalid_argument with the leaf-only message, [get] finds the key, and
    the map is as it was. *)
Theorem remove_outcomes m k :
  match fst (remove k m) with
  | Return None =>
      fst (get k m) = None /\ snd (remove k m) = m
  | Return (Some v) =>
      fst (get k m) = Some v /\
      fst (get k (snd (remove k m))) = None /\
      remove k (snd (remove k m)) = (Return None, snd (remove k m))
  | Throw e =>
      e = invalid_argument "ERROR: Only leaf nodes can be removed." /\
      (exists v, fst (get k m) = Some v) /\
      snd (remove k m) = m
  end.
Proof.
  assert (forall v, fst (remove k m) = Return (Some v) ->
                    fst (get k (snd (remove k m))) = None) as Hgone.
  { intros v. unfold remove, get. simpl.
    pose proof (get_remove_loop_gone k (root m)) as Hg.
    destruct (remove_loop k (root m)) as [[[ret|]|e] t']; simpl in *;
      try discriminate.
    intros _. now apply (Hg ret). }
  revert Hgone. unfold remove, get. simpl.
  rewrite remove_loop_slot, (get_loop_slot k (root m)).
  destruct (slot (walk k (root m)) (root m)) as [|c w l r] eqn:E; simpl.
  - intros _. split; [reflexivity | now destruct m].
  - destruct (nonnull r || nonnull l) eqn:N; simpl.
    + intros _. split; [reflexivity|]. split; [now exists w | now destruct m].
    + intros Hgone. specialize (Hgone w eq_refl).
      split; [reflexivity|]. split; [exact Hgone|].
      exact (remove_absent k
               {| size_ := size_decr (size_ m);
                  root := assign (walk k (root m)) nullptr (root m) |}
               Hgone).
Qed.

(** X3.  A [put] of the value a key already has changes nothing. *)
Theorem put_same_value m k v :
  fst (get k m) = Some v -> put k v m = (Some v, m).
Proof.
  unfold get, put. simpl. rewrite get_loop_slot.
  destruct (root m) as [|c w l r] eqn:E; [discriminate|]. rewrite <- E.
  rewrite put_loop_slot.
  destruct (slot (walk k (root m)) (root m)) as [|c' w' l' r'] eqn:Es;
    [discriminate|].
  intros [= ->]. rewrite <- Es, assign_slot_same. now destruct m.
Qed.

End Returns.

Section Updates.
Context {K V : Type} {key_ops : Key K} {key_order : KeyOrder K}.
Context {show_key : Show K} {show_value : Show V}.
Implicit Types (t l r n : tree K V) (k key : K) (v value : V)
         (m : BinarySearchTreeMap K V).

(** X2.  After [put] of [k] and [v], in every state, [get] returns [v] for [k]
    and, for any other key, what it returned before. *)
Theorem get_put m k v k' :
  fst (get k' (snd (put k v m))) =
  if key_eqb k k' then Some v else fst (get k' m).
Proof.
  unfold get. simpl. rewrite root_put.
  destruct (key_eqb k k') eqn:E.
  - apply key_eqb_eq in E. subst k'. apply get_put_loop_same.
  - apply get_put_loop_other. apply not_eq_sym. now apply key_eqb_false.
Qed.

Lemma root_null_count t : node_count t = 0 <-> t = nullptr.
Proof. destruct t; simpl; split; intros; (reflexivity || discriminate). Qed.

(** X9.  In a reachable state whose nodes a size_t can count, isEmpty() is true
    exactly when the root is null, which is exactly when [get] finds no
    key at all. *)
Theorem isEmpty_iff m :
  reachable m -> addressable m ->
  (isEmpty m = true <-> root m = nullptr) /\
  (isEmpty m = true <-> forall k, fst (get k m) = None).
Proof.
  intros R A.
  pose proof (reachable_size m R A) as Hs.
  assert (isEmpty m = true <-> root m = nullptr) as H1.
  { unfold isEmpty. unfold size in Hs. rewrite Hs, Z.eqb_eq.
    rewrite <- root_null_count. lia. }
  split; [exact H1|]. rewrite H1. split.
  - intros E k. unfold get. simpl. now rewrite E.
  - intros Hg. destruct (root m) as [|c w l r] eqn:E; [reflexivity|].
    specialize (Hg c). unfold get in Hg. simpl in Hg.
    rewrite E in Hg. simpl in Hg. rewrite key_eqb_refl in Hg. discriminate.
Qed.

(** X10.  toString() never fails: in every state, whatever the tree, its loop
    ends within twice the node count plus one iterations and has written
    the in-order traversal between the brackets.  In every state reachable
    by put, get and remove calls, removals included, that traversal is in
    strictly ascending key order and lists exactly the pairs [get] finds. *)
Theorem toString_every_state m :
  (forall fuel, toString_bound m <= fuel ->
     toString_with fuel m =
     Some ("[ " ++ render (inorder (root m)) ++ "]")%string) /\
  (reachable m ->
   StronglySorted key_lt (keys (root m)) /\
   forall k v, In (k, v) (inorder (root m)) <-> fst (get k m) = Some v).
Proof.
  split.
  - intros fuel Hf. now apply toString_with_runs.
  - intros R. pose proof (reachable_bst m R) as B. split.
    + now apply bst_sorted.
    + intros k v. unfold get. simpl. symmetry. now apply get_loop_In.
Qed.

End Updates.

(** ** Round trips of [put] and [remove] *)

Section RoundTrips.
Context {K V : Type} {key_ops : Key K} {key_order : KeyOrder K}.
Implicit Types (t l r n : tree K V) (k key : K) (v value : V)
         (m : BinarySearchTreeMap K V).

Lemma size_incr_decr (s : Z) :
  (0 <= s < 2 ^ SIZE_WIDTH)%Z -> size_incr (size_decr s) = s.
Proof.
  intros Hs. unfold size_incr, size_decr.
  rewrite Zplus_mod_idemp_l. replace (s - 1 + 1)%Z with s by lia.
  now apply Z.mod_small.
Qed.

Lemma size_decr_incr (s : Z) :
  (0 <= s < 2 ^ SIZE_WIDTH)%Z -> size_decr (size_incr s) = s.
Proof.
  intros Hs. unfold size_incr, size_decr.
  rewrite Zminus_mod_idemp_l. replace (s + 1 - 1)%Z with s by lia.
  now apply Z.mod_small.
Qed.

Lemma reachable_size_range m :
  reachable m -> (0 <= size_ m < 2 ^ SIZE_WIDTH)%Z.
Proof.
  intros R. rewrite (reachable_counted m R).
  apply Z.mod_pos_bound. reflexivity.
Qed.

Lemma put_remove_loop key value t :
  fst (remove_loop key t) = Return (Some value) ->
  put_loop key value (snd (remove_loop key t)) = (None, t).
Proof.
  induction t as [|c w l IHl r IHr]; simpl; [discriminate|].
  walk_step c key.
  - subst c. destruct (nonnull r || nonnull l) eqn:N; simpl; [discriminate|].
    apply orb_false_elim in N. destruct N as [Nr Nl].
    apply nonnull_false in Nr, Nl. subst. now intros [= ->].
  - destruct (remove_loop key r) as [res r']. simpl in *.
    intros Hr. rewrite Heq, Hgt, (IHr Hr). reflexivity.
  - destruct (remove_loop key l) as [res l']. simpl in *.
    intros Hl. rewrite Heq, Hgt, (IHl Hl). reflexivity.
Qed.

Lemma remove_put_loop key value t :
  get_loop key t = None ->
  remove_loop key (snd (put_loop key value t)) = (Return (Some value), t).
Proof.
  induction t as [|c w l IHl r IHr]; simpl.
  - intros _. now rewrite key_eqb_refl.
  - destruct (key_eqb c key) eqn:E; [discriminate|].
    destruct (key_gtb key c) eqn:G; intros Hg.
    + destruct (put_loop key value r) as [ret r']. simpl in *.
      rewrite E, G, (IHr Hg). reflexivity.
    + destruct (put_loop key value l) as [ret l']. simpl in *.
      rewrite E, G, (IHl Hg). reflexivity.
Qed.

(** X5.  In a reachable state, putting back the key and value a [remove] has
    just returned restores the map exactly, tree shape and counter, and
    returns the empty result. *)
Theorem put_after_remove m k v :
  reachable m ->
  fst (remove k m) = Return (Some v) ->
  put k v (snd (remove k m)) = (None, m).
Proof.
  intros R. pose proof (reachable_size_range m R) as Hs.
  pose proof (put_remove_loop k v (root m)) as Hp.
  unfold remove.
  destruct (remove_loop k (root m)) as [[[ret|]|e] t'] eqn:E;
    simpl in *; try discriminate.
  intros [= ->]. specialize (Hp eq_refl). unfold put. simpl.
  destruct t' as [|c w l r].
  - simpl in Hp. injection Hp as Hp. rewrite Hp, size_incr_decr by exact Hs.
    now destruct m.
  - rewrite Hp, size_incr_decr by exact Hs. now destruct m.
Qed.

(** X6.  In a reachable state, removing a key that has just been put, and was
    not in the map before, returns the value put and restores the map
    exactly: a freshly inserted key is always a leaf. *)
Theorem remove_after_put m k v :
  reachable m ->
  fst (get k m) = None ->
  remove k (snd (put k v m)) = (Return (Some v), m).
Proof.
  intros R Hg. pose proof (reachable_size_range m R) as Hs.
  unfold get in Hg. simpl in Hg.
  pose proof (remove_put_loop k v (root m) Hg) as Hr.
  pose proof (put_returns_none k v (root m) Hg) as Hn.
  unfold put. destruct (root m) as [|c w l r] eqn:E.
  - unfold remove. simpl. rewrite key_eqb_refl. simpl.
    rewrite size_decr_incr by exact Hs. destruct m; simpl in *. now subst.
  - destruct (put_loop k v (Node c w l r)) as [[ret|] t']; simpl in *;
      [discriminate|].
    unfold remove. simpl. rewrite Hr.
    rewrite size_decr_incr by exact Hs. destruct m; simpl in *. now subst.
Qed.

End RoundTrips.

(** ** Emptying a map, and the shape sorted input gives *)

Section Shapes.
Context {K V : Type} {key_ops : Key K} {key_order : KeyOrder K}.
Implicit Types (t l r n : tree K V) (k key : K) (v value : V)
         (m : BinarySearchTreeMap K V).

Lemma reachable_run (cs : list (call K V)) m :
  reachable m -> reachable (run cs m).
Proof.
  revert m. induction cs as [|c cs IH]; intros m R; [exact R|].
  change (run (c :: cs) m) with (run cs (after c m)).
  apply IH, reachable_after, R.
Qed.

Lemma fst_remove key m : fst (remove key m) = fst (remove_loop key (root m)).
Proof.
  unfold remove.
  now destruct (remove_loop key (root m)) as [[[ret|]|e] t'].
Qed.

Lemma removes_drain (ks : list K) m :
  results (map Remove ks) m = fst (drain ks (root m)) /\
  root (run (map Remove ks) m) = snd (drain ks (root m)).
Proof.
  revert m. induction ks as [|k ks IH]; intros m; [now split|].
  change (run (map Remove (k :: ks)) m)
    with (run (map Remove ks) (snd (remove k m))).
  simpl results. simpl drain.
  destruct (IH (snd (remove k m))) as [IH1 IH2].
  rewrite root_remove in IH1, IH2. rewrite fst_remove, IH1, IH2.
  destruct (remove_loop k (root m)) as [res t']. cbn [fst snd].
  destruct (drain ks t') as [rs t'']. now split.
Qed.

Lemma drain_app (ks1 ks2 : list K) t :
  drain (ks1 ++ ks2) t =
  (fst (drain ks1 t) ++ fst (drain ks2 (snd (drain ks1 t))),
   snd (drain ks2 (snd (drain ks1 t)))).
Proof.
  revert t. induction ks1 as [|k ks1 IH]; intros t; simpl.
  - now destruct (drain ks2 t).
  - destruct (remove_loop k t) as [res t']. rewrite IH.
    now destruct (drain ks1 t').
Qed.

Lemma drain_left (ks : list K) c w l r :
  Forall (fun k => key_lt k c) ks ->
  drain ks (Node c w l r) =
  (fst (drain ks l), Node c w (snd (drain ks l)) r).
Proof.
  revert l. induction ks as [|k ks IH]; intros l Hks; [reflexivity|].
  inversion Hks as [|? ? Hk Hks']; subst. simpl.
  rewrite (key_eqb_neq c k) by (apply not_eq_sym, (key_lt_neq _ _ Hk)).
  rewrite (key_gtb_asym _ _ Hk).
  destruct (remove_loop k l) as [res l']. rewrite (IH l' Hks').
  now destruct (drain ks l').
Qed.

Lemma drain_right (ks : list K) c w l r :
  Forall (fun k => key_gt k c) ks ->
  drain ks (Node c w l r) =
  (fst (drain ks r), Node c w l (snd (drain ks r))).
Proof.
  revert r. induction ks as [|k ks IH]; intros r Hks; [reflexivity|].
  inversion Hks as [|? ? Hk Hks']; subst. simpl.
  rewrite (key_eqb_neq c k) by (apply not_eq_sym, (key_gt_neq _ _ Hk)).
  unfold key_gt in Hk. rewrite Hk.
  destruct (remove_loop k r) as [res r']. rewrite (IH r' Hks').
  now destruct (drain ks r').
Qed.

Lemma postorder_inorder (e : K * V) t :
  In e (postorder t) -> In e (inorder t).
Proof.
  induction t as [|c w l IHl r IHr]; simpl; [auto|].
  rewrite !in_app_iff. simpl. intuition.
Qed.

Lemma Forall_postorder (P : K -> Prop) t :
  Forall P (keys t) -> Forall P (map fst (postorder t)).
Proof.
  unfold keys. rewrite !Forall_forall. intros Hp k Hk.
  apply in_map_iff in Hk. destruct Hk as (e & <- & He).
  apply Hp, in_map, postorder_inorder, He.
Qed.

Lemma drain_postorder t :
  bst t ->
  drain (map fst (postorder t)) t =
  (map (fun e => Return (Some (snd e))) (postorder t), nullptr).
Proof.
  induction t as [|c w l IHl r IHr]; [reflexivity|].
  intros (Hl & Hr & Bl & Br). simpl postorder.
  rewrite !map_app, !drain_app.
  rewrite (drain_left _ c w l r (Forall_postorder _ l Hl)), (IHl Bl).
  cbn [fst snd].
  rewrite (drain_right _ c w nullptr r (Forall_postorder _ r Hr)), (IHr Br).
  cbn [fst snd]. simpl. now rewrite key_eqb_refl.
Qed.

(** X7.  Leaf-only removal can still empty any map: from a reachable state,
    removing the keys in post-order (children before their parent) never
    throws, returns every value, and leaves the freshly constructed map,
    with a null root and size 0. *)
Theorem remove_postorder_empties m :
  reachable m ->
  results (map Remove (map fst (postorder (root m)))) m =
  map (fun e => Return (Some (snd e))) (postorder (root m)) /\
  run (map Remove (map fst (postorder (root m)))) m = empty.
Proof.
  intros R. pose proof (reachable_bst m R) as B.
  destruct (removes_drain (map fst (postorder (root m))) m) as [H1 H2].
  rewrite (drain_postorder (root m) B) in H1, H2. simpl in H1, H2.
  split; [exact H1|].
  pose proof (reachable_counted _
                (reachable_run (map Remove (map fst (postorder (root m)))) m R))
    as C.
  unfold counted in C. rewrite H2 in C. simpl in C.
  destruct (run (map Remove (map fst (postorder (root m)))) m) as [s t].
  simpl in *. now subst.
Qed.

Lemma sorted_snoc (xs : list K) (x : K) :
  StronglySorted key_lt (xs ++ [x]) ->
  StronglySorted key_lt xs /\ Forall (fun y => key_lt y x) xs.
Proof.
  induction xs as [|y xs IH]; simpl; intros S.
  - split; constructor.
  - inversion S as [|? ? S' Hy]; subst. destruct (IH S') as [Sx Fx].
    apply Forall_app in Hy. destruct Hy as [Hy Hx].
    inversion Hx; subst. split; constructor; auto.
Qed.

Lemma put_loop_chain k v (es : list (K * V)) :
  Forall (fun y => key_lt y k) (map fst es) ->
  put_loop k v (chain es) = (None, chain (es ++ [(k, v)])).
Proof.
  induction es as [|[k0 v0] es IH]; simpl; intros Hes; [reflexivity|].
  inversion Hes as [|? ? Hk Hes']; subst.
  rewrite (key_eqb_neq k0 k) by (apply (key_lt_neq _ _ Hk)).
  unfold key_lt in Hk. rewrite Hk, (IH Hes'). reflexivity.
Qed.

Lemma height_chain (es : list (K * V)) : height (chain es) = List.length es.
Proof.
  induction es as [|[k v] es IH]; simpl; [reflexivity|]. now rewrite IH.
Qed.

(** X8.  No rebalancing: putting pairs in strictly ascending key order into a
    fresh map builds a single chain of right children, as deep as there
    are pairs. *)
Theorem ascending_puts_chain (es : list (K * V)) :
  StronglySorted key_lt (map fst es) ->
  root (run (map (fun e => Put (fst e) (snd e)) es) empty) = chain es /\
  height (root (run (map (fun e => Put (fst e) (snd e)) es) empty))
  = List.length es.
Proof.
  intros S.
  assert (root (run (map (fun e => Put (fst e) (snd e)) es) empty) = chain es)
    as Hc.
  { induction es as [|[k v] es IH] using rev_ind; [reflexivity|].
    rewrite map_app in S. simpl in S. apply sorted_snoc in S.
    destruct S as [S F]. rewrite map_app. unfold run in *.
    rewrite fold_left_app. simpl. rewrite root_put, (IH S).
    now rewrite (put_loop_chain k v es F). }
  split; [exact Hc|]. rewrite Hc. apply height_chain.
Qed.

End Shapes.

(** * The further properties on the map of [main] *)

Lemma put_same_value_witness :
  fst (get 5%Z main_map8) = Some "five" /\
  put 5%Z "five" main_map8 = (Some "five", main_map8).
Proof.
  split; [reflexivity|].
  apply (@put_same_value Z string int_Key main_map8 5%Z "five").
  reflexivity.
Defined.

Lemma get_put_witness :
  fst (get 9%Z (snd (put 9%Z "nine" main_map8))) =
  (if key_eqb 9%Z 9%Z then Some "nine" else fst (get 9%Z main_map8)) /\
  fst (get 3%Z (snd (put 9%Z "nine" main_map8))) =
  (if key_eqb 9%Z 3%Z then Some "nine" else fst (get 3%Z main_map8)).
Proof.
  split.
  - exact (@get_put Z string int_Key int_KeyOrder main_map8 9%Z "nine" 9%Z).
  - exact (@get_put Z string int_Key int_KeyOrder main_map8 9%Z "nine" 3%Z).
Defined.

Lemma isEmpty_iff_witness :
  reachable (@empty Z string) /\ addressable (@empty Z string) /\
  (isEmpty (@empty Z string) = true <-> root (@empty Z string) = nullptr) /\
  (isEmpty main_map8 = true <-> forall k, fst (get k main_map8) = None).
Proof.
  assert (reachable (@empty Z string)) as R by (exists []; reflexivity).
  assert (addressable (@empty Z string)) as A
      by (unfold addressable; vm_compute; discriminate).
  split; [exact R|]. split; [exact A|]. split.
  - exact (proj1 (@isEmpty_iff Z string int_Key int_KeyOrder empty R A)).
  - exact (proj2 (@isEmpty_iff Z string int_Key int_KeyOrder main_map8
                    main_map8_reachable main_map8_addressable)).
Defined.

Lemma toString_every_state_witness :
  reachable main_map7 /\
  toString_with 15 main_map7 =
  Some ("[ " ++ render (inorder (root main_map7)) ++ "]")%string /\
  StronglySorted key_lt (keys (root main_map7)).
Proof.
  split; [exact main_map7_reachable|].
  destruct (@toString_every_state Z string int_Key int_KeyOrder
              int_Show string_Show main_map7) as [Hs Hr].
  split.
  - apply Hs. vm_compute. apply le_n.
  - exact (proj1 (Hr main_map7_reachable)).
Defined.

Lemma put_after_remove_witness :
  reachable main_map8 /\
  fst (remove 2%Z main_map8) = Return (Some "two") /\
  put 2%Z "two" (snd (remove 2%Z main_map8)) = (None, main_map8).
Proof.
  split; [exact main_map8_reachable|]. split; [reflexivity|].
  apply (@put_after_remove Z string int_Key int_KeyOrder main_map8 2%Z "two").
  - exact main_map8_reachable.
  - reflexivity.
Defined.

Lemma remove_after_put_witness :
  reachable main_map8 /\
  fst (get 9%Z main_map8) = None /\
  remove 9%Z (snd (put 9%Z "nine" main_map8))
  = (Return (Some "nine"), main_map8).
Proof.
  split; [exact main_map8_reachable|]. split; [reflexivity|].
  apply (@remove_after_put Z string int_Key int_KeyOrder main_map8 9%Z "nine").
  - exact main_map8_reachable.
  - reflexivity.
Defined.

Lemma remove_postorder_empties_witness :
  reachable main_map8 /\
  map fst (postorder (root main_map8)) = [0; 2; 1; 3; 7; 6; 5; 4]%Z /\
  results (map Remove (map fst (postorder (root main_map8)))) main_map8 =
  map (fun e => Return (Some (snd e))) (postorder (root main_map8)) /\
  run (map Remove (map fst (postorder (root main_map8)))) main_map8 = empty.
Proof.
  split; [exact main_map8_reachable|]. split; [reflexivity|].
  exact (@remove_postorder_empties Z string int_Key int_KeyOrder main_map8
           main_map8_reachable).
Defined.

Lemma ascending_puts_chain_witness :
  StronglySorted key_lt (map fst [(1%Z, "one"); (2%Z, "two"); (3%Z, "three")]) /\
  root (run (map (fun e => Put (fst e) (snd e))
                 [(1%Z, "one"); (2%Z, "two"); (3%Z, "three")]) empty)
  = chain [(1%Z, "one"); (2%Z, "two"); (3%Z, "three")] /\
  height (root (run (map (fun e => Put (fst e) (snd e))
                         [(1%Z, "one"); (2%Z, "two"); (3%Z, "three")]) empty))
  = 3.
Proof.
  assert (StronglySorted key_lt
            (map fst [(1%Z, "one"); (2%Z, "two"); (3%Z, "three")])) as S.
  { simpl. repeat constructor. }
  split; [exact S|].
  exact (@ascending_puts_chain Z string int_Key int_KeyOrder
           [(1%Z, "one"); (2%Z, "two"); (3%Z, "three")] S).
Defined.
